(** Verification of the two browser scripts of the Undo repository:
    [static/sw.js] (offline cache manager, a service worker) and
    [static/swipe.js] (horizontal-swipe tab navigation). *)

From Stdlib Require Import String Ascii List ZArith Bool Lia Reals Lra.
Import ListNotations.
Open Scope string_scope.

(* ===================================================================== *)
(** * static/sw.js *)
(* ===================================================================== *)

Module ServiceWorker.

(** ** Platform values *)

(** [resp_vary]: the field names listed by the response's [Vary] header
    ([[]] when the header is absent). *)
Record response := mkResponse {
  resp_url : string;
  resp_status : Z;
  resp_vary : list string;
  resp_body : string
}.

Record request := mkRequest {
  req_url : string;
  req_method : string;
  req_mode : string
}.

(** [new Request(url)]: what [caches.match(url)] and [cache.addAll(urls)]
    build from a bare URL string. *)
Definition get_request (u : string) : request :=
  {| req_url := u; req_method := "GET"; req_mode := "cors" |}.

(** A cache is the list of its entries, keyed by request URL, in insertion
    order; the CacheStorage is the list of named caches in creation order. *)
Definition cache := list (string * response).
Definition storage := list (string * cache).

(** The network, as seen by [fetch]: [None] means the promise rejects
    (offline, DNS failure, ...); [Some r] means it resolves with [r],
    whatever [r]'s HTTP status. *)
Definition network := request -> option response.

Fixpoint lookup_cache (name : string) (st : storage) : option cache :=
  match st with
  | [] => None
  | (n, c) :: st' => if String.eqb n name then Some c else lookup_cache name st'
  end.

Fixpoint update_cache (name : string) (c : cache) (st : storage) : storage :=
  match st with
  | [] => []
  | (n, c0) :: st' =>
      if String.eqb n name then (n, c) :: st' else (n, c0) :: update_cache name c st'
  end.

Fixpoint cache_lookup (c : cache) (u : string) : option response :=
  match c with
  | [] => None
  | (k, r) :: c' => if String.eqb k u then Some r else cache_lookup c' u
  end.

(** [caches.match(req)]: the first cache, in creation order, holding an
    entry for the request; with the default options a non-GET request
    matches nothing. *)
Fixpoint storage_lookup (st : storage) (u : string) : option response :=
  match st with
  | [] => None
  | (_, c) :: st' =>
      match cache_lookup c u with
      | Some r => Some r
      | None => storage_lookup st' u
      end
  end.

Definition storage_match (st : storage) (req : request) : option response :=
  if String.eqb (req_method req) "GET" then storage_lookup st (req_url req) else None.

(** [cache.put]: an entry for the same URL is replaced, the new one is
    appended. *)
Definition cache_put (c : cache) (e : string * response) : cache :=
  (filter (fun e' => negb (String.eqb (fst e') (fst e))) c ++ [e])%list.

(** [response.ok]: an ok status, 200 to 299. *)
Definition response_ok (r : response) : bool :=
  ((200 <=? resp_status r) && (resp_status r <=? 299))%Z.

(** What [cache.addAll] stores: an ok status other than 206 (a partial
    response), and no [Vary: *]. *)
Definition addAll_accepts (r : response) : bool :=
  response_ok r && negb (resp_status r =? 206)%Z
  && negb (existsb (String.eqb "*") (resp_vary r)).

(** ** Promises over the CacheStorage *)

Inductive exn :=
| NetworkFailure (u : string)
| BadStatus (u : string) (status : Z).

Inductive outcome (A : Type) :=
| Resolved (a : A)
| Rejected (e : exn).
Arguments Resolved {A} a.
Arguments Rejected {A} e.

(** A promise-returning computation: it reads the network and threads the
    CacheStorage. *)
Definition M (A : Type) := network -> storage -> outcome A * storage.

Definition ret {A} (a : A) : M A := fun _ st => (Resolved a, st).

(** [p.then(k)] *)
Definition bind {A B} (p : M A) (k : A -> M B) : M B :=
  fun net st =>
    match p net st with
    | (Resolved a, st') => k a net st'
    | (Rejected e, st') => (Rejected e, st')
    end.

(** [p.catch(h)] *)
Definition catch {A} (p : M A) (h : exn -> M A) : M A :=
  fun net st =>
    match p net st with
    | (Resolved a, st') => (Resolved a, st')
    | (Rejected e, st') => h e net st'
    end.

Notation "x <- p ;; k" := (bind p (fun x => k))
  (at level 61, p at next level, right associativity).

(** [fetch(req)] *)
Definition fetch (req : request) : M response :=
  fun net st =>
    match net req with
    | Some r => (Resolved r, st)
    | None => (Rejected (NetworkFailure (req_url req)), st)
    end.

(** [caches.open(name)]: creates the cache when absent; the handle is the
    name. *)
Definition caches_open (name : string) : M string :=
  fun _ st =>
    match lookup_cache name st with
    | Some _ => (Resolved name, st)
    | None => (Resolved name, (st ++ [(name, [])])%list)
    end.

(** [caches.match(req)]: resolves with the entry or with [undefined]
    ([None]). *)
Definition caches_match (req : request) : M (option response) :=
  fun _ st => (Resolved (storage_match st req), st).

(** [cache.addAll(urls)]: every URL is fetched; the call rejects when a
    fetch rejects or answers with a response [addAll] refuses (a non-2xx
    status, a 206, or [Vary: *]), and then nothing is stored; otherwise all
    the responses are put in one batch. *)
Fixpoint fetch_all (net : network) (urls : list string)
  : outcome (list (string * response)) :=
  match urls with
  | [] => Resolved []
  | u :: us =>
      match net (get_request u) with
      | None => Rejected (NetworkFailure u)
      | Some r =>
          if addAll_accepts r then
            match fetch_all net us with
            | Resolved rs => Resolved ((u, r) :: rs)
            | Rejected e => Rejected e
            end
          else Rejected (BadStatus u (resp_status r))
      end
  end.

Definition cache_addAll (name : string) (urls : list string) : M unit :=
  fun net st =>
    match fetch_all net urls with
    | Resolved rs =>
        let c := match lookup_cache name st with Some c => c | None => [] end in
        (Resolved tt, update_cache name (fold_left cache_put rs c) st)
    | Rejected e => (Rejected e, st)
    end.

(** ** The worker *)

Definition CACHE_NAME := "undo-cache-v1".
Definition OFFLINE_URL := "/static/offline.html".
Definition PRECACHE : list string :=
  [ "/";
    "/static/style.css";
    OFFLINE_URL;
    "/static/icons/icon-192.png";
    "/static/icons/icon-512.png";
    "/static/manifest.webmanifest" ].

(** The install handler's body, as the list of the calls it makes in
    order: [event.waitUntil(p)] then [self.skipWaiting()]. *)
Inductive install_call :=
| WaitUntil (p : M unit)
| SkipWaiting.

Definition on_install : list install_call :=
  [ WaitUntil (cache <- caches_open CACHE_NAME ;; cache_addAll cache PRECACHE);
    SkipWaiting ].

(** The lifecycle signals the runtime observes, in order. *)
Inductive signal :=
| SkipWaitingCalled
| WaitUntilSettled (ok : bool).

(** The handler body runs to completion first (run-to-completion: no
    promise callback runs before it returns); the promises handed to
    [waitUntil] settle afterwards. *)
Fixpoint run_handler_body (calls : list install_call) : list signal * list (M unit) :=
  match calls with
  | [] => ([], [])
  | WaitUntil p :: cs => let (sg, ps) := run_handler_body cs in (sg, p :: ps)
  | SkipWaiting :: cs => let (sg, ps) := run_handler_body cs in (SkipWaitingCalled :: sg, ps)
  end.

Fixpoint settle (ps : list (M unit)) (net : network) (st : storage)
  : list signal * bool * storage :=
  match ps with
  | [] => ([], true, st)
  | p :: ps' =>
      match p net st with
      | (Resolved _, st1) =>
          let '(sg, ok, st2) := settle ps' net st1 in (WaitUntilSettled true :: sg, ok, st2)
      | (Rejected _, st1) =>
          let '(sg, ok, st2) := settle ps' net st1 in (WaitUntilSettled false :: sg, false, st2)
      end
  end.

(** Dispatching [install]: signals, whether the install succeeded, and the
    CacheStorage afterwards. *)
Definition dispatch_install (net : network) (st : storage) : list signal * bool * storage :=
  let (sg, ps) := run_handler_body on_install in
  let '(sg', ok, st') := settle ps net st in
  ((sg ++ sg')%list, ok, st').

(** The fetch handler: the promise it hands to [event.respondWith]. *)
Definition on_fetch (req : request) : M (option response) :=
  if String.eqb (req_mode req) "navigate" then
    catch (r <- fetch req ;; ret (Some r))
          (fun _ => caches_match (get_request OFFLINE_URL))
  else
    hit <- caches_match req ;;
    match hit with
    | Some h => ret (Some h)
    | None => r <- fetch req ;; ret (Some r)
    end.

Inductive served :=
| Served (r : response)
| NetworkError.

(** [event.respondWith(p)]: a promise resolving with [undefined] or
    rejecting yields a network error for the page. *)
Definition dispatch_fetch (net : network) (st : storage) (req : request) : served * storage :=
  match on_fetch req net st with
  | (Resolved (Some r), st') => (Served r, st')
  | (Resolved None, st') => (NetworkError, st')
  | (Rejected _, st') => (NetworkError, st')
  end.

(** The CacheStorage once [caches.open(CACHE_NAME)] has resolved. *)
Definition opened (st : storage) : storage :=
  match lookup_cache CACHE_NAME st with
  | Some _ => st
  | None => (st ++ [(CACHE_NAME, [])])%list
  end.

Definition old_entries (st : storage) : cache :=
  match lookup_cache CACHE_NAME st with
  | Some c => c
  | None => []
  end.

End ServiceWorker.

(* ===================================================================== *)
(** * static/swipe.js *)
(* ===================================================================== *)

Module Swipe.

Local Open Scope Z_scope.

Definition SWIPE_THRESHOLD : Z := 60.
Definition MAX_ANGLE_DEG : Z := 30.

(** DOM elements, with the attributes the selectors look at. *)
Record element := mkElement {
  tag_name : string;
  attributes : list (string * string)
}.

Fixpoint get_attribute (attrs : list (string * string)) (a : string) : option string :=
  match attrs with
  | [] => None
  | (k, v) :: attrs' => if String.eqb k a then Some v else get_attribute attrs' a
  end.

(** One element against
    [input, textarea, select, button, a, [contenteditable="true"]]. *)
Definition form_selector_matches (el : element) : bool :=
  existsb (String.eqb (tag_name el)) ["input"; "textarea"; "select"; "button"; "a"]
  || match get_attribute (attributes el) "contenteditable" with
     | Some v => String.eqb v "true"
     | None => false
     end.

(** [isFormEl(el)]: [el.closest(sel)], the event target being given with
    its ancestors, the target first; a missing target is the empty list. *)
Definition isFormEl (target : list element) : bool :=
  existsb form_selector_matches target.

(** [angleOK(dx, dy)]. With [adx <> 0],
    [Math.atan2(ady, adx) * 180 / Math.PI <= 30] says
    [ady / adx <= tan 30deg = 1 / sqrt 3], that is [3 * ady^2 <= adx^2];
    coordinates are whole CSS pixels and the comparison is exact (see
    [angleOK_atan] below for the equivalence with the atan form). *)
Definition angleOK (dx dy : Z) : bool :=
  let adx := Z.abs dx in
  let ady := Z.abs dy in
  if adx =? 0 then false
  else 3 * ady * ady <=? adx * adx.

(** The module-level [let startX, startY, moved, ignore]. *)
Record gesture := mkGesture {
  startX : Z;
  startY : Z;
  moved : bool;
  ignore : bool
}.

Definition gesture0 : gesture := mkGesture 0 0 false false.

Record page := mkPage {
  origin : string;
  href : string
}.

Inductive touch_event :=
| TouchStart (x y : Z) (target : list element)
| TouchMove
| TouchEnd (x y : Z).

(** The tab list: the [href]s of the links of [nav.undo-nav], or the
    three fallback paths under the page origin. *)
Definition build_tabs (nav_hrefs : list string) (orig : string) : list string :=
  match nav_hrefs with
  | [] => map (fun p => orig ++ p) ["/"; "/reflections"; "/profile"]
  | _ => nav_hrefs
  end.

Fixpoint findIndex_from (f : string -> bool) (l : list string) (k : Z) : Z :=
  match l with
  | [] => -1
  | t :: l' => if f t then k else findIndex_from f l' (k + 1)
  end.

Section Navigation.

(** [new URL(href, base).pathname], [None] when the constructor throws. *)
Variable url_pathname : string -> string -> option string.
Variable pg : page.
Variable tabs : list string.

(** [normalizePath]: the [try]/[catch] turns a throw into [null]. *)
Definition normalizePath (h : string) : option string :=
  url_pathname (origin pg) h.

(** [tabIndexOf]: [if (!path) return -1] also rejects the empty path;
    [normalizePath(t) === path] is false for an unparsable [t]. *)
Definition tabIndexOf (h : string) : Z :=
  match normalizePath h with
  | None => -1
  | Some p =>
      if String.eqb p "" then -1
      else findIndex_from
             (fun t => match normalizePath t with
                       | Some q => String.eqb q p
                       | None => false
                       end) tabs 0
  end.

(** [goto(url)]: navigates (result [Some url]) only to a truthy URL;
    [None] stands for [undefined]. [window.location.assign(url)] first
    parses [url] against the document's base URL, the page URL (the pages
    have no [<base>] element), and throws a [SyntaxError] instead of
    navigating when that fails; the throw ends the listener. *)
Definition goto (u : option string) : option string :=
  match u with
  | Some s =>
      if String.eqb s "" then None
      else match url_pathname (href pg) s with
           | Some _ => Some s
           | None => None
           end
  | None => None
  end.

Definition nextTab : option string :=
  let i := tabIndexOf (href pg) in
  if 0 <=? i then goto (nth_error tabs (Z.to_nat ((i + 1) mod Z.of_nat (length tabs))))
  else None.

Definition prevTab : option string :=
  let i := tabIndexOf (href pg) in
  if 0 <=? i then
    goto (nth_error tabs (Z.to_nat ((i - 1 + Z.of_nat (length tabs)) mod Z.of_nat (length tabs))))
  else None.

(** The [touchend] listener; [Some u] is [window.location.assign(u)]. *)
Definition on_touchend (g : gesture) (x y : Z) : option string :=
  if ignore g || negb (moved g) then None
  else
    let dx := x - startX g in
    let dy := y - startY g in
    if Z.abs dx <? SWIPE_THRESHOLD then None
    else if negb (angleOK dx dy) then None
    else if dx <? 0 then nextTab else prevTab.

(** The three listeners. *)
Definition step (g : gesture) (ev : touch_event) : gesture * option string :=
  match ev with
  | TouchStart x y target =>
      (mkGesture x y false (isFormEl target), None)
  | TouchMove => (mkGesture (startX g) (startY g) true (ignore g), None)
  | TouchEnd x y => (g, on_touchend g x y)
  end.

(** Dispatching a list of events: the navigations requested, in order. *)
Fixpoint run (g : gesture) (evs : list touch_event) : list string :=
  match evs with
  | [] => []
  | ev :: evs' =>
      let (g', nav) := step g ev in
      match nav with
      | Some u => u :: run g' evs'
      | None => run g' evs'
      end
  end.

End Navigation.

(** One touch sequence: a start, [k] moves, an end. *)
Definition touch_sequence (x0 y0 : Z) (target : list element) (k : nat) (x1 y1 : Z)
  : list touch_event :=
  TouchStart x0 y0 target :: repeat TouchMove k ++ [TouchEnd x1 y1].

(** A fragment of the WHATWG URL parser's [pathname], against a base that
    is an origin (path "/"): the empty reference (the base's path), a
    path-absolute reference, and an absolute [https:] URL; the path stops
    at [?] or [#]. Other inputs are reported unparsable. Used to run the
    code on concrete pages. *)
Fixpoint path_prefix (s : string) : string :=
  match s with
  | EmptyString => EmptyString
  | String c s' =>
      if Ascii.eqb c "?"%char || Ascii.eqb c "#"%char then EmptyString
      else String c (path_prefix s')
  end.

Fixpoint skip_authority (s : string) : string :=
  match s with
  | EmptyString => EmptyString
  | String c s' =>
      if Ascii.eqb c "/"%char || Ascii.eqb c "?"%char || Ascii.eqb c "#"%char then s
      else skip_authority s'
  end.

Definition demo_pathname (base h : string) : option string :=
  if String.eqb h "" then Some "/"
  else if String.prefix "//" h then None
  else if String.prefix "/" h then Some (path_prefix h)
  else if String.prefix "https://" h then
    let p := path_prefix (skip_authority (substring 8 (String.length h - 8) h)) in
    Some (if String.eqb p "" then "/" else p)
  else None.

(** ASCII lower case. *)
Definition ascii_lower (c : ascii) : ascii :=
  let n := nat_of_ascii c in
  if (65 <=? n)%nat && (n <=? 90)%nat then ascii_of_nat (n + 32) else c.

Fixpoint string_lower (s : string) : string :=
  match s with
  | EmptyString => EmptyString
  | String c s' => String (ascii_lower c) (string_lower s')
  end.

(** A [contenteditable] value that makes the element editable: the
    keywords of its true state (the empty value and "true") and of its
    plaintext-only state, compared ASCII case-insensitively. *)
Definition editable_keyword (v : string) : bool :=
  existsb (String.eqb (string_lower v)) [""; "true"; "plaintext-only"].

(** The elements the spec calls interactive: input, textarea, select,
    button, anchor, or an editable element. *)
Definition claim_interactive (el : element) : bool :=
  existsb (String.eqb (tag_name el)) ["input"; "textarea"; "select"; "button"; "a"]
  || match get_attribute (attributes el) "contenteditable" with
     | Some v => editable_keyword v
     | None => false
     end.

Definition claim_starts_inside_interactive (target : list element) : bool :=
  existsb claim_interactive target.

(** A concrete page: the fallback tab list under [https://u.example]. *)
Definition demo_origin := "https://u.example".
Definition demo_tabs := build_tabs [] demo_origin.

End Swipe.

(* ===================================================================== *)
(** * Properties of the offline cache manager *)
(* ===================================================================== *)

Module ServiceWorkerFacts.
Import ServiceWorker.

(** ** CacheStorage bookkeeping *)

Lemma lookup_cache_app_other (n : string) (st st2 : storage) :
  lookup_cache n st = None -> lookup_cache n (st ++ st2)%list = lookup_cache n st2.
Proof.
  induction st as [|[n0 c0] st IH]; simpl; [reflexivity|].
  destruct (String.eqb n0 n); [discriminate | exact IH].
Qed.

Lemma lookup_cache_opened (st : storage) (n : string) :
  lookup_cache n st = None -> lookup_cache n (st ++ [(n, [])])%list = Some [].
Proof.
  intro H. rewrite lookup_cache_app_other by exact H. simpl.
  rewrite String.eqb_refl. reflexivity.
Qed.

Lemma lookup_update_same (n : string) (c : cache) (st : storage) :
  lookup_cache n st <> None -> lookup_cache n (update_cache n c st) = Some c.
Proof.
  induction st as [|[n0 c0] st IH]; simpl; [congruence|].
  destruct (String.eqb n0 n) eqn:E; simpl; rewrite E; auto.
Qed.

Lemma cache_lookup_app (c l : cache) (u : string) (r : response) :
  cache_lookup c u = Some r -> cache_lookup (c ++ l)%list u = Some r.
Proof.
  induction c as [|[k r0] c IH]; simpl; [discriminate|].
  destruct (String.eqb k u); auto.
Qed.

Lemma cache_lookup_app_none (c l : cache) (u : string) :
  cache_lookup c u = None -> cache_lookup (c ++ l)%list u = cache_lookup l u.
Proof.
  induction c as [|[k r0] c IH]; simpl; [reflexivity|].
  destruct (String.eqb k u); [discriminate | auto].
Qed.

(** Filtering out the entries of another key keeps the lookup of [u]. *)
Lemma cache_lookup_filter_other (c : cache) (k u : string) :
  k <> u ->
  cache_lookup (filter (fun e' => negb (String.eqb (fst e') k)) c) u = cache_lookup c u.
Proof.
  intro Hne. induction c as [|[k0 r0] c IH]; simpl; [reflexivity|].
  destruct (String.eqb k0 k) eqn:E1; simpl.
  - apply String.eqb_eq in E1; subst k0.
    apply String.eqb_neq in Hne. rewrite Hne. exact IH.
  - destruct (String.eqb k0 u); [reflexivity | exact IH].
Qed.

Lemma cache_lookup_filter_same (c : cache) (k : string) :
  cache_lookup (filter (fun e' => negb (String.eqb (fst e') k)) c) k = None.
Proof.
  induction c as [|[k0 r0] c IH]; simpl; [reflexivity|].
  destruct (String.eqb k0 k) eqn:E1; simpl; [exact IH|].
  rewrite E1. exact IH.
Qed.

(** Once a URL has an entry, later puts keep one for it. *)
Lemma cache_put_keeps (c : cache) (e : string * response) (u : string) :
  (exists r, cache_lookup c u = Some r) ->
  exists r, cache_lookup (cache_put c e) u = Some r.
Proof.
  intros [r Hr]. destruct e as [k re]. unfold cache_put; simpl.
  destruct (String.eqb k u) eqn:E.
  - apply String.eqb_eq in E; subst k. exists re.
    rewrite cache_lookup_app_none by apply cache_lookup_filter_same.
    simpl. rewrite String.eqb_refl. reflexivity.
  - apply String.eqb_neq in E. exists r.
    apply cache_lookup_app. rewrite cache_lookup_filter_other by exact E. exact Hr.
Qed.

Lemma fold_put_keeps (rs : list (string * response)) (c : cache) (u : string) :
  (exists r, cache_lookup c u = Some r) ->
  exists r, cache_lookup (fold_left cache_put rs c) u = Some r.
Proof.
  revert c. induction rs as [|e rs IH]; intros c H; simpl; [exact H|].
  apply IH, cache_put_keeps, H.
Qed.

Lemma fold_put_finds (rs : list (string * response)) (c : cache) (u : string) :
  In u (map fst rs) -> exists r, cache_lookup (fold_left cache_put rs c) u = Some r.
Proof.
  revert c. induction rs as [|[k re] rs IH]; intros c Hin; simpl in *; [contradiction|].
  destruct Hin as [<- | Hin]; [|apply IH, Hin].
  apply fold_put_keeps. exists re. unfold cache_put; simpl.
  rewrite cache_lookup_app_none by apply cache_lookup_filter_same.
  simpl. rewrite String.eqb_refl. reflexivity.
Qed.

Lemma filter_other_keys (c : cache) (k : string) :
  ~ In k (map fst c) -> filter (fun e' => negb (String.eqb (fst e') k)) c = c.
Proof.
  induction c as [|[k0 r0] c IH]; intro Hn; simpl in *; [reflexivity|].
  destruct (String.eqb k0 k) eqn:E.
  - apply String.eqb_eq in E. exfalso. auto.
  - simpl. f_equal. auto.
Qed.

(** Putting entries of fresh, pairwise distinct keys appends them. *)
Lemma fold_put_keys (rs : list (string * response)) (c : cache) :
  NoDup (map fst rs) ->
  (forall k, In k (map fst rs) -> ~ In k (map fst c)) ->
  map fst (fold_left cache_put rs c) = (map fst c ++ map fst rs)%list.
Proof.
  revert c. induction rs as [|[k re] rs IH]; intros c Hnd Hfresh; simpl in *.
  - rewrite app_nil_r. reflexivity.
  - inversion Hnd as [|? ? Hk Hnd']; subst.
    unfold cache_put at 2. simpl.
    rewrite filter_other_keys by (apply Hfresh; left; reflexivity).
    rewrite IH; [| exact Hnd' |].
    + rewrite map_app, <- app_assoc. reflexivity.
    + intros k' Hk'. rewrite map_app. simpl. intros Hin.
      apply in_app_or in Hin as [Hin | [<- | []]].
      * exact (Hfresh k' (or_intror Hk') Hin).
      * exact (Hk Hk').
Qed.

(** ** [cache.addAll] *)

Lemma fetch_all_keys (net : network) (urls : list string) rs :
  fetch_all net urls = Resolved rs -> map fst rs = urls.
Proof.
  revert rs. induction urls as [|u us IH]; intros rs H; simpl in H.
  - injection H as <-. reflexivity.
  - destruct (net (get_request u)) as [r|]; [|discriminate].
    destruct (addAll_accepts r); [|discriminate].
    destruct (fetch_all net us) as [rs'|e] eqn:E; [|discriminate].
    injection H as <-. simpl. f_equal. apply IH. reflexivity.
Qed.

Lemma fetch_all_resolves (net : network) (urls : list string) :
  (forall u, In u urls -> exists r, net (get_request u) = Some r /\ addAll_accepts r = true) ->
  exists rs, fetch_all net urls = Resolved rs.
Proof.
  induction urls as [|u us IH]; intros H; simpl; [eauto|].
  destruct (H u (or_introl eq_refl)) as [r [Hr Hok]]. rewrite Hr, Hok.
  destruct IH as [rs Hrs]; [intros; apply H; right; assumption|].
  rewrite Hrs. eauto.
Qed.

Lemma fetch_all_rejects (net : network) (urls : list string) (u : string) :
  In u urls ->
  (net (get_request u) = None \/
   exists r, net (get_request u) = Some r /\ addAll_accepts r = false) ->
  exists e, fetch_all net urls = Rejected e.
Proof.
  induction urls as [|u0 us IH]; intros Hin Hf; simpl in *; [contradiction|].
  destruct Hin as [<- | Hin].
  - destruct Hf as [Hn | [r [Hr Hok]]].
    + rewrite Hn. eauto.
    + rewrite Hr, Hok. eauto.
  - destruct (net (get_request u0)) as [r0|]; [|eauto].
    destruct (addAll_accepts r0); [|eauto].
    destruct (IH Hin Hf) as [e He]. rewrite He. eauto.
Qed.

Lemma not_ok_not_accepted (r : response) :
  response_ok r = false -> addAll_accepts r = false.
Proof. unfold addAll_accepts. intros ->. reflexivity. Qed.

Lemma lookup_opened (st : storage) :
  lookup_cache CACHE_NAME (opened st) = Some (old_entries st).
Proof.
  unfold opened, old_entries. destruct (lookup_cache CACHE_NAME st) eqn:E.
  - exact E.
  - apply lookup_cache_opened, E.
Qed.

(** The whole install, unfolded. *)
Lemma dispatch_install_eq (net : network) (st : storage) :
  dispatch_install net st =
  match fetch_all net PRECACHE with
  | Resolved rs =>
      ([SkipWaitingCalled; WaitUntilSettled true], true,
       update_cache CACHE_NAME (fold_left cache_put rs (old_entries st)) (opened st))
  | Rejected _ => ([SkipWaitingCalled; WaitUntilSettled false], false, opened st)
  end.
Proof.
  unfold dispatch_install, on_install; cbn -[fetch_all PRECACHE].
  unfold bind, caches_open, cache_addAll.
  pose proof (lookup_opened st) as Hl.
  unfold opened, old_entries in *.
  destruct (lookup_cache CACHE_NAME st) as [c|] eqn:E.
  - rewrite E. destruct (fetch_all net PRECACHE); reflexivity.
  - rewrite Hl. destruct (fetch_all net PRECACHE); reflexivity.
Qed.

(** ** The fetch handler, unfolded *)

Lemma dispatch_fetch_navigate (net : network) (st : storage) (req : request) :
  req_mode req = "navigate" ->
  dispatch_fetch net st req =
  (match net req with
   | Some r => Served r
   | None =>
       match storage_match st (get_request OFFLINE_URL) with
       | Some p => Served p
       | None => NetworkError
       end
   end, st).
Proof.
  intro H. unfold dispatch_fetch, on_fetch. rewrite H. simpl.
  unfold catch, bind, fetch, ret, caches_match.
  destruct (net req); [reflexivity|].
  destruct (storage_match st (get_request OFFLINE_URL)); reflexivity.
Qed.

Lemma dispatch_fetch_other (net : network) (st : storage) (req : request) :
  req_mode req <> "navigate" ->
  dispatch_fetch net st req =
  (match storage_match st req with
   | Some h => Served h
   | None =>
       match net req with
       | Some r => Served r
       | None => NetworkError
       end
   end, st).
Proof.
  intro H. apply String.eqb_neq in H.
  unfold dispatch_fetch, on_fetch. rewrite H.
  unfold bind, fetch, ret, caches_match.
  destruct (storage_match st req); [reflexivity|].
  destruct (net req); reflexivity.
Qed.

Lemma storage_lookup_finds (st : storage) (n u : string) (c : cache) :
  lookup_cache n st = Some c ->
  (exists r, cache_lookup c u = Some r) ->
  exists r, storage_lookup st u = Some r.
Proof.
  induction st as [|[n0 c0] st IH]; intros Hl Hc; simpl in *; [discriminate|].
  destruct (cache_lookup c0 u) as [r|] eqn:E; [eauto|].
  destruct (String.eqb n0 n).
  - injection Hl as <-. destruct Hc as [r Hr]. congruence.
  - apply IH; assumption.
Qed.

(** ** Claims *)

(** C1: a navigation request is served network-first. When the live fetch
    resolves, its response is served as it is; when it rejects, the cached
    offline page [/static/offline.html] is served. In both cases the
    CacheStorage is left as it was (nothing is written back). *)
Theorem navigate_network_first (net : network) (st : storage) (req : request)
  (Hnav : req_mode req = "navigate") :
  (forall r, net req = Some r -> dispatch_fetch net st req = (Served r, st)) /\
  (net req = None ->
   forall offline_page,
     storage_match st (get_request OFFLINE_URL) = Some offline_page ->
     dispatch_fetch net st req = (Served offline_page, st)).
Proof.
  rewrite (dispatch_fetch_navigate net st req Hnav).
  split.
  - intros r Hr. rewrite Hr. reflexivity.
  - intros Hn p Hp. rewrite Hn, Hp. reflexivity.
Qed.

(** C2: any other request is served cache-first: the cached entry when
    there is one, else the outcome of the live fetch; the CacheStorage is
    unchanged either way. *)
Theorem subresource_cache_first (net : network) (st : storage) (req : request)
  (Hnav : req_mode req <> "navigate") :
  dispatch_fetch net st req =
  (match storage_match st req with
   | Some hit => Served hit
   | None =>
       match net req with
       | Some r => Served r
       | None => NetworkError
       end
   end, st).
Proof. exact (dispatch_fetch_other net st req Hnav). Qed.

(** C4 fails as stated: the precache manifest has six paths, not seven. *)
Lemma precache_manifest_not_seven : length PRECACHE <> 7%nat.
Proof. vm_compute. discriminate. Qed.

(** C4 (amended): the precache manifest consists of six distinct asset
    paths; after an install, from a CacheStorage without the
    [undo-cache-v1] cache, in which every precache fetch answers with a
    response [cache.addAll] accepts (a 2xx status other than 206, no
    [Vary: *]), the install succeeds and that cache holds exactly those six
    entries. *)
Theorem install_populates_precache (net : network) (st : storage)
  (Hfresh : lookup_cache CACHE_NAME st = None)
  (Hok : forall u, In u PRECACHE ->
         exists r, net (get_request u) = Some r /\ addAll_accepts r = true) :
  length PRECACHE = 6%nat /\ NoDup PRECACHE /\
  (let '(_, ok, st') := dispatch_install net st in
   ok = true /\ option_map (map fst) (lookup_cache CACHE_NAME st') = Some PRECACHE).
Proof.
  assert (Hnd : NoDup PRECACHE).
  { unfold PRECACHE, OFFLINE_URL.
    repeat constructor; simpl; intuition discriminate. }
  split; [reflexivity|]. split; [exact Hnd|].
  rewrite dispatch_install_eq.
  destruct (fetch_all_resolves net PRECACHE Hok) as [rs Hrs].
  rewrite Hrs. split; [reflexivity|].
  pose proof (fetch_all_keys net PRECACHE rs Hrs) as Hk.
  rewrite lookup_update_same.
  - simpl. unfold old_entries. rewrite Hfresh.
    rewrite fold_put_keys; [simpl; rewrite Hk; reflexivity | rewrite Hk; exact Hnd | simpl; tauto].
  - rewrite lookup_opened. discriminate.
Qed.

(** C5 fails as stated: [self.skipWaiting()] is called by the install
    handler's body before the population promise settles, and is called
    also when population fails (here: the network is down). *)
Lemma skip_waiting_before_population :
  dispatch_install (fun _ => None) [] =
  ([SkipWaitingCalled; WaitUntilSettled false], false, [(CACHE_NAME, [])]).
Proof. vm_compute. reflexivity. Qed.

(** C5 (amended): every install first signals [skipWaiting] (during the
    handler's body, before population settles and whatever its outcome),
    then the population promise settles; the install succeeds exactly when
    population does. *)
Theorem install_signal_order (net : network) (st : storage) :
  exists ok st',
    dispatch_install net st = ([SkipWaitingCalled; WaitUntilSettled ok], ok, st').
Proof.
  rewrite dispatch_install_eq.
  destruct (fetch_all net PRECACHE); eauto.
Qed.

(** C6: precache population is all-or-nothing. When the fetch of one
    manifest URL rejects or answers with a non-2xx status, the install
    fails (the [waitUntil] promise rejects, nothing recovers it) and the
    CacheStorage holds no new entry: it is the one before the install, with
    at most an empty [undo-cache-v1] cache created by [caches.open]. *)
Theorem install_all_or_nothing (net : network) (st : storage) (u : string)
  (Hin : In u PRECACHE)
  (Hfail : net (get_request u) = None \/
           exists r, net (get_request u) = Some r /\ response_ok r = false) :
  dispatch_install net st =
  ([SkipWaitingCalled; WaitUntilSettled false], false,
   match lookup_cache CACHE_NAME st with
   | Some _ => st
   | None => (st ++ [(CACHE_NAME, [])])%list
   end).
Proof.
  rewrite dispatch_install_eq.
  assert (Hfail' : net (get_request u) = None \/
                   exists r, net (get_request u) = Some r /\ addAll_accepts r = false).
  { destruct Hfail as [Hn | [r [Hr Hok]]]; [left; exact Hn|].
    right. exists r. split; [exact Hr|]. apply not_ok_not_accepted, Hok. }
  destruct (fetch_all_rejects net PRECACHE u Hin Hfail') as [e He].
  rewrite He. reflexivity.
Qed.

(** C9: the offline page is itself in the precache manifest, so after any
    successful install a navigation whose fetch rejects is always answered
    from the cache. *)
Theorem offline_fallback_always_cached :
  In OFFLINE_URL PRECACHE /\
  forall (net : network) (st : storage) sg st' (net' : network) (req : request),
    dispatch_install net st = (sg, true, st') ->
    req_mode req = "navigate" ->
    net' req = None ->
    exists offline_page, dispatch_fetch net' st' req = (Served offline_page, st').
Proof.
  split; [simpl; tauto|].
  intros net st sg st' net' req Hinst Hnav Hrej.
  rewrite dispatch_install_eq in Hinst.
  destruct (fetch_all net PRECACHE) as [rs|e] eqn:Hrs; [|discriminate].
  injection Hinst as _ <-.
  rewrite dispatch_fetch_navigate by exact Hnav. rewrite Hrej.
  unfold storage_match; simpl.
  destruct (storage_lookup_finds
              (update_cache CACHE_NAME (fold_left cache_put rs (old_entries st)) (opened st))
              CACHE_NAME OFFLINE_URL (fold_left cache_put rs (old_entries st)))
    as [p Hp].
  - apply lookup_update_same. rewrite lookup_opened. discriminate.
  - apply fold_put_finds. rewrite (fetch_all_keys net PRECACHE rs Hrs). simpl. tauto.
  - rewrite Hp. eauto.
Qed.

(** C10: a navigation whose fetch resolves is answered with that very
    response, whatever its HTTP status (404, 500, ...); the offline page is
    only used when the fetch rejects. *)
Theorem navigate_resolved_response_served (net : network) (st : storage)
  (req : request) (r : response)
  (Hnav : req_mode req = "navigate")
  (Hr : net req = Some r) :
  dispatch_fetch net st req = (Served r, st).
Proof.
  rewrite (dispatch_fetch_navigate net st req Hnav), Hr. reflexivity.
Qed.

End ServiceWorkerFacts.

(* ===================================================================== *)
(** * Properties of the swipe navigator *)
(* ===================================================================== *)

Module SwipeFacts.
Import Swipe.
Local Open Scope Z_scope.

(** ** [Array.prototype.findIndex] *)

Lemma findIndex_first (f : string -> bool) (l : list string) (k : Z) (j : nat) (t : string) :
  nth_error l j = Some t -> f t = true ->
  (forall j' t', (j' < j)%nat -> nth_error l j' = Some t' -> f t' = false) ->
  findIndex_from f l k = k + Z.of_nat j.
Proof.
  revert k j. induction l as [|t0 l IH]; intros k j Hj Hf Hbefore.
  - destruct j; discriminate.
  - destruct j as [|j]; simpl in *.
    + injection Hj as ->. rewrite Hf. lia.
    + rewrite (Hbefore 0%nat t0) by (reflexivity || lia).
      rewrite (IH (k + 1) j Hj Hf).
      * lia.
      * intros j' t' Hlt Hn. apply (Hbefore (S j')); [lia | exact Hn].
Qed.

Lemma findIndex_none (f : string -> bool) (l : list string) (k : Z) :
  (forall t, In t l -> f t = false) -> findIndex_from f l k = -1.
Proof.
  revert k. induction l as [|t0 l IH]; intros k H; simpl; [reflexivity|].
  rewrite (H t0 (or_introl eq_refl)). apply IH. intros t Ht. apply H. right. exact Ht.
Qed.

Lemma findIndex_result (f : string -> bool) (l : list string) (k : Z) :
  findIndex_from f l k = -1 \/
  exists j t, findIndex_from f l k = k + Z.of_nat j /\ nth_error l j = Some t /\ f t = true.
Proof.
  revert k. induction l as [|t0 l IH]; intros k; simpl; [left; reflexivity|].
  destruct (f t0) eqn:E.
  - right. exists 0%nat, t0. repeat split; [lia | exact E].
  - destruct (IH (k + 1)) as [H | (j & t & H1 & H2 & H3)]; [left; exact H|].
    right. exists (S j), t. rewrite H1. repeat split; [lia | exact H2 | exact H3].
Qed.

Section Lookup.

Variable url_pathname : string -> string -> option string.
Variable pg : page.
Variable tabs : list string.

Let normalizePath := normalizePath url_pathname pg.
Let tabIndexOf := tabIndexOf url_pathname pg tabs.

(** The index [tabIndexOf] finds for a current path [p] that is present,
    [i] being its first position. *)
Lemma tabIndexOf_found (p : string) (i : nat) (t : string) :
  normalizePath (href pg) = Some p -> p <> "" ->
  nth_error tabs i = Some t -> normalizePath t = Some p ->
  (forall j t', (j < i)%nat -> nth_error tabs j = Some t' -> normalizePath t' <> Some p) ->
  tabIndexOf (href pg) = Z.of_nat i.
Proof.
  intros Hcur Hp Hi Ht Hfirst.
  unfold tabIndexOf, Swipe.tabIndexOf. fold normalizePath. rewrite Hcur.
  apply String.eqb_neq in Hp. rewrite Hp.
  rewrite (findIndex_first _ tabs 0 i t Hi).
  - lia.
  - fold normalizePath. rewrite Ht. apply String.eqb_refl.
  - intros j t' Hlt Hn. fold normalizePath.
    specialize (Hfirst j t' Hlt Hn).
    destruct (normalizePath t') as [q|]; [|reflexivity].
    apply String.eqb_neq. congruence.
Qed.

Lemma nextTab_at (i : nat) :
  tabIndexOf (href pg) = Z.of_nat i -> (i < length tabs)%nat ->
  Swipe.nextTab url_pathname pg tabs = goto url_pathname pg (nth_error tabs ((i + 1) mod length tabs)).
Proof.
  intros Hidx Hlt. unfold Swipe.nextTab. fold tabIndexOf. rewrite Hidx.
  replace (0 <=? Z.of_nat i) with true by (symmetry; apply Z.leb_le; lia).
  replace ((Z.of_nat i + 1) mod Z.of_nat (length tabs))
    with (Z.of_nat ((i + 1) mod length tabs)) by (rewrite Nat2Z.inj_mod; f_equal; lia).
  rewrite Nat2Z.id. reflexivity.
Qed.

Lemma prevTab_at (i : nat) :
  tabIndexOf (href pg) = Z.of_nat i -> (i < length tabs)%nat ->
  Swipe.prevTab url_pathname pg tabs =
  goto url_pathname pg (nth_error tabs ((i + length tabs - 1) mod length tabs)).
Proof.
  intros Hidx Hlt. unfold Swipe.prevTab. fold tabIndexOf. rewrite Hidx.
  replace (0 <=? Z.of_nat i) with true by (symmetry; apply Z.leb_le; lia).
  replace ((Z.of_nat i - 1 + Z.of_nat (length tabs)) mod Z.of_nat (length tabs))
    with (Z.of_nat ((i + length tabs - 1) mod length tabs)) by (rewrite Nat2Z.inj_mod; f_equal; lia).
  rewrite Nat2Z.id. reflexivity.
Qed.

End Lookup.

(** ** Running the listeners *)

Lemma run_moves (url_pathname : string -> string -> option string) (pg : page)
  (tabs : list string) (k : nat) (g : gesture) (rest : list touch_event) :
  run url_pathname pg tabs g (repeat TouchMove k ++ rest)%list =
  run url_pathname pg tabs
      (match k with
       | O => g
       | S _ => mkGesture (startX g) (startY g) true (ignore g)
       end) rest.
Proof.
  revert g. induction k as [|k IH]; intro g; [reflexivity|].
  simpl. rewrite IH. destruct k; reflexivity.
Qed.

Lemma run_sequence (url_pathname : string -> string -> option string) (pg : page)
  (tabs : list string) (g : gesture) x0 y0 target k x1 y1 :
  run url_pathname pg tabs g (touch_sequence x0 y0 target k x1 y1) =
  match on_touchend url_pathname pg tabs
          (mkGesture x0 y0 (Nat.ltb 0 k) (isFormEl target)) x1 y1 with
  | Some u => [u]
  | None => []
  end.
Proof.
  unfold touch_sequence. simpl. rewrite run_moves.
  destruct k; simpl; destruct (on_touchend _ _ _ _ _ _); reflexivity.
Qed.

Lemma on_touchend_cases (url_pathname : string -> string -> option string) (pg : page)
  (tabs : list string) (g : gesture) (x y : Z) :
  on_touchend url_pathname pg tabs g x y = None \/
  on_touchend url_pathname pg tabs g x y = nextTab url_pathname pg tabs \/
  on_touchend url_pathname pg tabs g x y = prevTab url_pathname pg tabs.
Proof.
  unfold on_touchend.
  destruct (ignore g || negb (moved g)); [tauto|].
  destruct (Z.abs (x - startX g) <? SWIPE_THRESHOLD); [tauto|].
  destruct (negb (angleOK (x - startX g) (y - startY g))); [tauto|].
  destruct (x - startX g <? 0); tauto.
Qed.

(** ** Claims *)

(** C7: tab navigation wraps modulo the length [n] of the tab list. With
    the current path first found at index [i], "next" goes to the tab at
    [(i + 1) mod n] and "previous" to the tab at [(i - 1 + n) mod n]; so
    "next" from the last tab is the first tab and "previous" from the first
    tab is the last one. ([goto] is the source's guarded
    [location.assign].) *)
Theorem tab_navigation_wraps (url_pathname : string -> string -> option string)
  (pg : page) (tabs : list string) (p : string) (i : nat) (t : string)
  (Hcur : normalizePath url_pathname pg (href pg) = Some p)
  (Hp : p <> "")
  (Hi : nth_error tabs i = Some t)
  (Ht : normalizePath url_pathname pg t = Some p)
  (Hfirst : forall j t', (j < i)%nat -> nth_error tabs j = Some t' ->
            normalizePath url_pathname pg t' <> Some p) :
  nextTab url_pathname pg tabs = goto url_pathname pg (nth_error tabs ((i + 1) mod length tabs)) /\
  prevTab url_pathname pg tabs =
    goto url_pathname pg (nth_error tabs
            (Z.to_nat ((Z.of_nat i - 1 + Z.of_nat (length tabs)) mod Z.of_nat (length tabs)))) /\
  (i = (length tabs - 1)%nat -> nextTab url_pathname pg tabs = goto url_pathname pg (nth_error tabs 0)) /\
  (i = 0%nat -> prevTab url_pathname pg tabs = goto url_pathname pg (nth_error tabs (length tabs - 1))).
Proof.
  pose proof (tabIndexOf_found url_pathname pg tabs p i t Hcur Hp Hi Ht Hfirst) as Hidx.
  assert (Hlt : (i < length tabs)%nat) by (apply nth_error_Some; congruence).
  rewrite (nextTab_at url_pathname pg tabs i Hidx Hlt).
  rewrite (prevTab_at url_pathname pg tabs i Hidx Hlt).
  replace ((Z.of_nat i - 1 + Z.of_nat (length tabs)) mod Z.of_nat (length tabs))
    with (Z.of_nat ((i + length tabs - 1) mod length tabs)) by (rewrite Nat2Z.inj_mod; f_equal; lia).
  rewrite Nat2Z.id.
  repeat split.
  - intros ->. replace (length tabs - 1 + 1)%nat with (length tabs) by lia.
    rewrite Nat.Div0.mod_same. reflexivity.
  - intros ->. rewrite Nat.mod_small by lia. reflexivity.
Qed.

(** C8: when the current page's path is not found in the tab list (also
    when the current URL does not parse), neither direction navigates and
    no touch sequence navigates. The lookup itself never fails: it answers
    [-1] or the index of a tab that parses and has the current path, so an
    unparsable tab never matches. *)
Theorem unknown_page_no_navigation (url_pathname : string -> string -> option string)
  (pg : page) (tabs : list string)
  (Hnf : normalizePath url_pathname pg (href pg) = None \/
         forall t, In t tabs ->
           normalizePath url_pathname pg t <> normalizePath url_pathname pg (href pg)) :
  nextTab url_pathname pg tabs = None /\
  prevTab url_pathname pg tabs = None /\
  (forall g evs, run url_pathname pg tabs g evs = []) /\
  (forall h, tabIndexOf url_pathname pg tabs h = -1 \/
     exists j t, tabIndexOf url_pathname pg tabs h = Z.of_nat j /\
       nth_error tabs j = Some t /\
       normalizePath url_pathname pg t <> None /\
       normalizePath url_pathname pg t = normalizePath url_pathname pg h).
Proof.
  assert (Hm1 : tabIndexOf url_pathname pg tabs (href pg) = -1).
  { unfold tabIndexOf.
    destruct Hnf as [Hn | Hall].
    - rewrite Hn. reflexivity.
    - destruct (normalizePath url_pathname pg (href pg)) as [p|] eqn:Hc; [|reflexivity].
      destruct (String.eqb p ""); [reflexivity|].
      apply findIndex_none. intros t Ht.
      specialize (Hall t Ht).
      destruct (normalizePath url_pathname pg t) as [q|]; [|reflexivity].
      apply String.eqb_neq. congruence. }
  assert (Hnext : nextTab url_pathname pg tabs = None)
    by (unfold nextTab; rewrite Hm1; reflexivity).
  assert (Hprev : prevTab url_pathname pg tabs = None)
    by (unfold prevTab; rewrite Hm1; reflexivity).
  split; [exact Hnext|]. split; [exact Hprev|]. split.
  - intros g evs. revert g. induction evs as [|ev evs IH]; intro g; [reflexivity|].
    destruct ev as [x y target| |x y]; simpl; try apply IH.
    destruct (on_touchend_cases url_pathname pg tabs g x y) as [E|[E|E]];
      rewrite E; try rewrite Hnext; try rewrite Hprev; apply IH.
  - intro h. unfold tabIndexOf.
    destruct (normalizePath url_pathname pg h) as [p|] eqn:Hh; [|left; reflexivity].
    destruct (String.eqb p ""); [left; reflexivity|].
    destruct (findIndex_result
                (fun t => match normalizePath url_pathname pg t with
                          | Some q => String.eqb q p
                          | None => false
                          end) tabs 0) as [E | (j & t & E & Hj & Hf)].
    + left. exact E.
    + right. exists j, t. rewrite E. split; [lia|]. split; [exact Hj|].
      destruct (normalizePath url_pathname pg t) as [q|]; [|discriminate].
      apply String.eqb_eq in Hf. subst q. split; [discriminate | reflexivity].
Qed.

(** C3 fails as stated. (1) A swipe starting in an element with
    [contenteditable=""] (editable) navigates: the selector only knows
    [contenteditable="true"]. (2) A qualifying swipe from a listed page
    onto an empty tab entry (the [href] of a navbar [<a>] without [href]
    attribute) does not navigate: [goto] skips falsy URLs. (3) Nor does one
    onto an entry that does not parse as a URL: [location.assign] throws. *)
Lemma swipe_claim_counterexample :
  claim_starts_inside_interactive [mkElement "div" [("contenteditable", "")]] = true /\
  run demo_pathname (mkPage demo_origin "https://u.example/") demo_tabs gesture0
      (touch_sequence 100 100 [mkElement "div" [("contenteditable", "")]] 1 180 110)
    = ["https://u.example/profile"] /\
  tabIndexOf demo_pathname (mkPage demo_origin "https://u.example/reflections")
      [""; "https://u.example/reflections"] "https://u.example/reflections" = 1 /\
  run demo_pathname (mkPage demo_origin "https://u.example/reflections")
      [""; "https://u.example/reflections"] gesture0
      (touch_sequence 100 100 [] 1 180 110) = [] /\
  tabIndexOf demo_pathname (mkPage demo_origin "https://u.example/reflections")
      ["http://[bad"; "https://u.example/reflections"] "https://u.example/reflections" = 1 /\
  run demo_pathname (mkPage demo_origin "https://u.example/reflections")
      ["http://[bad"; "https://u.example/reflections"] gesture0
      (touch_sequence 100 100 [] 1 180 110) = [].
Proof. repeat split; vm_compute; reflexivity. Qed.

(** On a target whose [contenteditable] values are each either exactly
    "true" or no editable keyword, the source's selector and the spec's
    notion of an interactive element agree. *)
Lemma isFormEl_claim (target : list element) :
  (forall el v, In el target ->
     get_attribute (attributes el) "contenteditable" = Some v ->
     v = "true" \/ editable_keyword v = false) ->
  isFormEl target = claim_starts_inside_interactive target.
Proof.
  unfold isFormEl, claim_starts_inside_interactive.
  induction target as [|el target IH]; intro Hce; [reflexivity|].
  simpl. f_equal.
  - unfold form_selector_matches, claim_interactive. f_equal.
    destruct (get_attribute (attributes el) "contenteditable") as [v|] eqn:E;
      [|reflexivity].
    destruct (Hce el v (or_introl eq_refl) E) as [-> | Hv]; [reflexivity|].
    rewrite Hv. apply String.eqb_neq. intros ->. discriminate Hv.
  - apply IH. intros el' v Hin. apply Hce. right. exact Hin.
Qed.

(** C3 (amended): take a touch sequence (start, [k] moves, end) on a page
    whose current path [p] (non-empty) is first found at index [i] of the
    tab list, starting on a target none of whose elements carries a
    [contenteditable] value that is an editable keyword other than the
    exact "true" (sequences starting there are left out). It navigates
    exactly when it moved ([k > 0]), did not start in or under an input,
    textarea, select, button, anchor or editable element, [|dx| >= 60] and
    the angle from horizontal is at most 30 degrees ([angleOK]), and the
    adjacent tab entry is a non-empty URL that parses against the page URL
    ([goto]: [location.assign] throws otherwise); the target is the tab at
    [(i + 1) mod n] when [dx < 0] and at [(i - 1 + n) mod n] when
    [dx > 0]. Any other sequence does not navigate. *)
Theorem swipe_navigation_contract (url_pathname : string -> string -> option string)
  (pg : page) (tabs : list string) (g : gesture)
  (x0 y0 : Z) (target : list element) (k : nat) (x1 y1 : Z)
  (p : string) (i : nat) (t : string)
  (Hcur : normalizePath url_pathname pg (href pg) = Some p)
  (Hp : p <> "")
  (Hi : nth_error tabs i = Some t)
  (Ht : normalizePath url_pathname pg t = Some p)
  (Hfirst : forall j t', (j < i)%nat -> nth_error tabs j = Some t' ->
            normalizePath url_pathname pg t' <> Some p)
  (Hce : forall el v, In el target ->
         get_attribute (attributes el) "contenteditable" = Some v ->
         v = "true" \/ editable_keyword v = false) :
  run url_pathname pg tabs g (touch_sequence x0 y0 target k x1 y1) =
  if Nat.ltb 0 k && negb (claim_starts_inside_interactive target)
     && (60 <=? Z.abs (x1 - x0)) && angleOK (x1 - x0) (y1 - y0)
  then
    match goto url_pathname pg (nth_error tabs
                  (if x1 - x0 <? 0 then ((i + 1) mod length tabs)%nat
                   else ((i + length tabs - 1) mod length tabs)%nat)) with
    | Some u => [u]
    | None => []
    end
  else [].
Proof.
  pose proof (tabIndexOf_found url_pathname pg tabs p i t Hcur Hp Hi Ht Hfirst) as Hidx.
  assert (Hlt : (i < length tabs)%nat) by (apply nth_error_Some; congruence).
  rewrite <- (isFormEl_claim target Hce).
  rewrite run_sequence. unfold on_touchend. cbn [ignore moved startX startY].
  destruct (Nat.ltb 0 k), (isFormEl target); simpl; try reflexivity.
  unfold SWIPE_THRESHOLD.
  destruct (Z.abs (x1 - x0) <? 60) eqn:E1.
  - apply Z.ltb_lt in E1.
    replace (60 <=? Z.abs (x1 - x0)) with false by (symmetry; apply Z.leb_gt; lia).
    reflexivity.
  - apply Z.ltb_ge in E1.
    replace (60 <=? Z.abs (x1 - x0)) with true by (symmetry; apply Z.leb_le; lia).
    simpl. destruct (angleOK (x1 - x0) (y1 - y0)); simpl; [|reflexivity].
    destruct (x1 - x0 <? 0).
    + rewrite (nextTab_at url_pathname pg tabs i Hidx Hlt).
      destruct (goto _); reflexivity.
    + rewrite (prevTab_at url_pathname pg tabs i Hidx Hlt).
      destruct (goto _); reflexivity.
Qed.

End SwipeFacts.

(* ===================================================================== *)
(** * [angleOK] against the source's [Math.atan2] form *)
(* ===================================================================== *)

Module SwipeAngle.
Import Swipe.
Local Open Scope R_scope.

Lemma atan_inv_sqrt3 : atan (1 / sqrt 3) = PI / 6.
Proof.
  rewrite <- tan_PI6. apply atan_tan. pose proof PI_RGT_0. lra.
Qed.

Lemma atan_le_iff (x c : R) : atan x <= atan c <-> x <= c.
Proof.
  split; intro H.
  - destruct (Rle_or_lt x c) as [Hle | Hgt]; [exact Hle|].
    pose proof (atan_increasing c x Hgt). lra.
  - destruct H as [Hlt | ->]; [left; apply atan_increasing, Hlt | right; reflexivity].
Qed.

Lemma degrees_le_30 (u : R) : u * 180 / PI <= 30 <-> u <= PI / 6.
Proof.
  pose proof PI_RGT_0 as Hpi.
  split; intro H.
  - assert (E : u * 180 = (u * 180 / PI) * PI) by (field; lra).
    assert (u * 180 <= 30 * PI).
    { rewrite E. apply Rmult_le_compat_r; lra. }
    lra.
  - assert (Hle : u * 180 <= 30 * PI) by lra.
    assert (Hinv : 0 <= / PI) by (left; apply Rinv_0_lt_compat; lra).
    pose proof (Rmult_le_compat_r (/ PI) _ _ Hinv Hle) as H2.
    replace (30 * PI * / PI) with 30 in H2 by (field; lra).
    unfold Rdiv. exact H2.
Qed.

Lemma ratio_le_inv_sqrt3 (a b : R) :
  0 <= a -> 0 < b -> (a / b <= 1 / sqrt 3 <-> 3 * (a * a) <= b * b).
Proof.
  intros Ha Hb.
  pose proof Rlt_sqrt3_0 as Hs.
  assert (Hss : sqrt 3 * sqrt 3 = 3) by (apply sqrt_sqrt; lra).
  assert (Step1 : a / b <= 1 / sqrt 3 <-> a * sqrt 3 <= b).
  { split; intro H.
    - apply Rle_trans with ((1 / sqrt 3) * (b * sqrt 3)); [|right; field; lra].
      replace (a * sqrt 3) with ((a / b) * (b * sqrt 3)) by (field; lra).
      apply Rmult_le_compat_r; [|exact H].
      left. apply Rmult_lt_0_compat; lra.
    - apply Rle_trans with (b * / (b * sqrt 3)); [|right; field; lra].
      replace (a / b) with ((a * sqrt 3) * / (b * sqrt 3)) by (field; lra).
      apply Rmult_le_compat_r; [|exact H].
      left. apply Rinv_0_lt_compat, Rmult_lt_0_compat; lra. }
  rewrite Step1.
  assert (Hsq : Rsqr (a * sqrt 3) = 3 * (a * a)).
  { rewrite Rsqr_mult, Rsqr_sqrt by lra. unfold Rsqr. ring. }
  split; intro H.
  - assert (Rsqr (a * sqrt 3) <= Rsqr b).
    { apply Rsqr_incr_1; [exact H | apply Rmult_le_pos; lra | lra]. }
    unfold Rsqr at 2 in H0. lra.
  - apply Rsqr_incr_0_var; [|lra]. rewrite Hsq. unfold Rsqr. exact H.
Qed.

(** [angleOK dx dy] is the source's test: [|dx| <> 0] and
    [Math.atan2(|dy|, |dx|) * 180 / Math.PI <= 30], where for [|dx| > 0]
    [atan2(|dy|, |dx|) = atan(|dy| / |dx|)], computed exactly. *)
Lemma angleOK_atan (dx dy : Z) :
  angleOK dx dy = true <->
  (Z.abs dx <> 0)%Z /\
  atan (IZR (Z.abs dy) / IZR (Z.abs dx)) * 180 / PI <= 30.
Proof.
  unfold angleOK.
  destruct (Z.abs dx =? 0)%Z eqn:E0.
  - apply Z.eqb_eq in E0. split; [discriminate | intros [H _]; contradiction].
  - apply Z.eqb_neq in E0.
    assert (Hb : 0 < IZR (Z.abs dx)) by (apply IZR_lt; lia).
    assert (Ha : 0 <= IZR (Z.abs dy)) by (apply IZR_le; lia).
    rewrite degrees_le_30, <- atan_inv_sqrt3, atan_le_iff,
      (ratio_le_inv_sqrt3 _ _ Ha Hb).
    rewrite Z.leb_le. split.
    + intro H. split; [exact E0|].
      apply IZR_le in H. rewrite !mult_IZR in H. lra.
    + intros [_ H]. apply le_IZR. rewrite !mult_IZR. lra.
Qed.

End SwipeAngle.

(* ===================================================================== *)
(** * The theorems on concrete inputs *)
(* ===================================================================== *)

Module Witnesses.
Import ServiceWorker ServiceWorkerFacts Swipe SwipeFacts.
Local Open Scope Z_scope.

Definition nav_req : request := mkRequest "/reflections" "GET" "navigate".
Definition css_req : request := get_request "/static/style.css".
Definition net_up : network := fun r => Some (mkResponse (req_url r) 200 [] "body").
Definition net_down : network := fun _ => None.
Definition installed : storage := snd (dispatch_install net_up []).

Definition pg_reflections : page := mkPage demo_origin "https://u.example/reflections?x=1".

Lemma navigate_network_first_witness :
  req_mode nav_req = "navigate" /\
  ((forall r, net_up nav_req = Some r -> dispatch_fetch net_up installed nav_req = (Served r, installed)) /\
   (net_up nav_req = None ->
    forall offline_page,
      storage_match installed (get_request OFFLINE_URL) = Some offline_page ->
      dispatch_fetch net_up installed nav_req = (Served offline_page, installed))).
Proof.
  split; [reflexivity|].
  apply (navigate_network_first net_up installed nav_req). reflexivity.
Defined.

Lemma subresource_cache_first_witness :
  req_mode css_req <> "navigate" /\
  dispatch_fetch net_down installed css_req =
  (match storage_match installed css_req with
   | Some hit => Served hit
   | None => match net_down css_req with Some r => Served r | None => NetworkError end
   end, installed).
Proof.
  split; [vm_compute; discriminate|].
  apply (subresource_cache_first net_down installed css_req). vm_compute. discriminate.
Defined.

Lemma install_populates_precache_witness :
  lookup_cache CACHE_NAME [] = None /\
  (length PRECACHE = 6%nat /\ NoDup PRECACHE /\
   (let '(_, ok, st') := dispatch_install net_up [] in
    ok = true /\ option_map (map fst) (lookup_cache CACHE_NAME st') = Some PRECACHE)).
Proof.
  split; [reflexivity|].
  apply (install_populates_precache net_up []); [reflexivity|].
  intros u _. eexists. split; reflexivity.
Defined.

Lemma install_all_or_nothing_witness :
  In OFFLINE_URL PRECACHE /\
  dispatch_install net_down installed =
  ([SkipWaitingCalled; WaitUntilSettled false], false,
   match lookup_cache CACHE_NAME installed with
   | Some _ => installed
   | None => (installed ++ [(CACHE_NAME, [])])%list
   end).
Proof.
  split; [simpl; tauto|].
  apply (install_all_or_nothing net_down installed OFFLINE_URL); [simpl; tauto | left; reflexivity].
Defined.

Lemma offline_fallback_always_cached_witness :
  dispatch_install net_up [] = ([SkipWaitingCalled; WaitUntilSettled true], true, installed) /\
  exists offline_page, dispatch_fetch net_down installed nav_req = (Served offline_page, installed).
Proof.
  split; [vm_compute; reflexivity|].
  apply (proj2 offline_fallback_always_cached net_up []
           [SkipWaitingCalled; WaitUntilSettled true] installed net_down nav_req);
    [vm_compute; reflexivity | reflexivity | reflexivity].
Defined.

Lemma navigate_resolved_response_served_witness :
  net_up nav_req = Some (mkResponse "/reflections" 200 [] "body") /\
  dispatch_fetch net_up [] nav_req = (Served (mkResponse "/reflections" 200 [] "body"), []).
Proof.
  split; [reflexivity|].
  apply (navigate_resolved_response_served net_up [] nav_req); reflexivity.
Defined.

Lemma tab_navigation_wraps_witness :
  nextTab demo_pathname pg_reflections demo_tabs =
    goto demo_pathname pg_reflections (nth_error demo_tabs ((1 + 1) mod length demo_tabs)) /\
  prevTab demo_pathname pg_reflections demo_tabs =
    goto demo_pathname pg_reflections (nth_error demo_tabs
            (Z.to_nat ((Z.of_nat 1 - 1 + Z.of_nat (length demo_tabs)) mod Z.of_nat (length demo_tabs)))) /\
  (1%nat = (length demo_tabs - 1)%nat ->
   nextTab demo_pathname pg_reflections demo_tabs = goto demo_pathname pg_reflections (nth_error demo_tabs 0)) /\
  (1%nat = 0%nat ->
   prevTab demo_pathname pg_reflections demo_tabs = goto demo_pathname pg_reflections (nth_error demo_tabs (length demo_tabs - 1))).
Proof.
  apply (tab_navigation_wraps demo_pathname pg_reflections demo_tabs "/reflections" 1
           "https://u.example/reflections"); try (vm_compute; reflexivity).
  - vm_compute. discriminate.
  - intros j t' Hj Hn. destruct j as [|j]; [|lia].
    vm_compute in Hn. injection Hn as <-. vm_compute. discriminate.
Defined.

Lemma unknown_page_no_navigation_witness :
  let pg := mkPage demo_origin "https://u.example/settings" in
  nextTab demo_pathname pg demo_tabs = None /\
  prevTab demo_pathname pg demo_tabs = None /\
  (forall g evs, run demo_pathname pg demo_tabs g evs = []) /\
  (forall h, tabIndexOf demo_pathname pg demo_tabs h = -1 \/
     exists j t, tabIndexOf demo_pathname pg demo_tabs h = Z.of_nat j /\
       nth_error demo_tabs j = Some t /\
       normalizePath demo_pathname pg t <> None /\
       normalizePath demo_pathname pg t = normalizePath demo_pathname pg h).
Proof.
  apply (unknown_page_no_navigation demo_pathname (mkPage demo_origin "https://u.example/settings")).
  right. intros t Ht. vm_compute in Ht.
  destruct Ht as [<- | [<- | [<- | []]]]; vm_compute; discriminate.
Defined.

Lemma swipe_navigation_contract_witness :
  run demo_pathname pg_reflections demo_tabs gesture0
      (touch_sequence 200 100 [mkElement "div" [("contenteditable", "false")]] 2 100 100) =
  (if Nat.ltb 0 2
      && negb (claim_starts_inside_interactive [mkElement "div" [("contenteditable", "false")]])
      && (60 <=? Z.abs (100 - 200)) && angleOK (100 - 200) (100 - 100)
   then
     match goto demo_pathname pg_reflections (nth_error demo_tabs
                   (if 100 - 200 <? 0 then ((1 + 1) mod length demo_tabs)%nat
                    else ((1 + length demo_tabs - 1) mod length demo_tabs)%nat)) with
     | Some u => [u]
     | None => []
     end
   else []) /\
  run demo_pathname pg_reflections demo_tabs gesture0
      (touch_sequence 200 100 [mkElement "div" [("contenteditable", "false")]] 2 100 100) =
  ["https://u.example/profile"].
Proof.
  split; [|vm_compute; reflexivity].
  apply (swipe_navigation_contract demo_pathname pg_reflections demo_tabs gesture0
           200 100 [mkElement "div" [("contenteditable", "false")]] 2 100 100
           "/reflections" 1 "https://u.example/reflections");
    try (vm_compute; reflexivity).
  - vm_compute. discriminate.
  - intros j t' Hj Hn. destruct j as [|j]; [|lia].
    vm_compute in Hn. injection Hn as <-. vm_compute. discriminate.
  - intros el v [<- | []] Hv. vm_compute in Hv. injection Hv as <-.
    right. vm_compute. reflexivity.
Defined.

End Witnesses.

(* ===================================================================== *)
(** * Further properties of the offline cache manager *)
(* ===================================================================== *)

Module ServiceWorkerExtra.
Import ServiceWorker ServiceWorkerFacts.

(** ** Lemmas on the CacheStorage *)

Lemma lookup_cache_app (n : string) (st1 st2 : storage) :
  lookup_cache n (st1 ++ st2)%list =
  match lookup_cache n st1 with Some c => Some c | None => lookup_cache n st2 end.
Proof.
  induction st1 as [|[n0 c0] st1 IH]; simpl; [reflexivity|].
  destruct (String.eqb n0 n); [reflexivity | exact IH].
Qed.

Lemma lookup_update_other (n name : string) (c : cache) (st : storage) :
  n <> name -> lookup_cache n (update_cache name c st) = lookup_cache n st.
Proof.
  intro Hne. induction st as [|[n0 c0] st IH]; simpl; [reflexivity|].
  destruct (String.eqb n0 name) eqn:E; simpl.
  - apply String.eqb_eq in E; subst n0.
    apply not_eq_sym, String.eqb_neq in Hne. rewrite Hne. reflexivity.
  - destruct (String.eqb n0 n); [reflexivity | exact IH].
Qed.

Lemma lookup_opened_other (n : string) (st : storage) :
  n <> CACHE_NAME -> lookup_cache n (opened st) = lookup_cache n st.
Proof.
  intro Hne. unfold opened. destruct (lookup_cache CACHE_NAME st) eqn:E; [reflexivity|].
  rewrite lookup_cache_app. destruct (lookup_cache n st); [reflexivity|].
  change (lookup_cache n [(CACHE_NAME, [])])
    with (if String.eqb CACHE_NAME n then Some ([] : cache) else lookup_cache n []).
  destruct (String.eqb CACHE_NAME n) eqn:E2; [|reflexivity].
  apply String.eqb_eq in E2. congruence.
Qed.

Lemma storage_lookup_app (st1 st2 : storage) (u : string) :
  storage_lookup (st1 ++ st2)%list u =
  match storage_lookup st1 u with Some r => Some r | None => storage_lookup st2 u end.
Proof.
  induction st1 as [|[n0 c0] st1 IH]; simpl; [reflexivity|].
  destruct (cache_lookup c0 u); [reflexivity | exact IH].
Qed.

Lemma update_cache_last (name : string) (c c0 : cache) (st : storage) :
  lookup_cache name st = None ->
  update_cache name c (st ++ [(name, c0)])%list = (st ++ [(name, c)])%list.
Proof.
  induction st as [|[n0 c1] st IH]; intro H; simpl in *.
  - rewrite String.eqb_refl. reflexivity.
  - destruct (String.eqb n0 name); [discriminate|]. f_equal. apply IH, H.
Qed.

(** ** Lemmas on [cache.put] *)

Lemma cache_put_keeps_value (c : cache) (e : string * response) (u : string) (r : response) :
  cache_lookup c u = Some r -> fst e <> u -> cache_lookup (cache_put c e) u = Some r.
Proof.
  intros Hr Hne. destruct e as [k re]. unfold cache_put; simpl in *.
  apply cache_lookup_app. rewrite cache_lookup_filter_other by exact Hne. exact Hr.
Qed.

Lemma fold_put_keeps_value (rs : list (string * response)) (c : cache) (u : string) (r : response) :
  cache_lookup c u = Some r -> Forall (fun e => fst e <> u) rs ->
  cache_lookup (fold_left cache_put rs c) u = Some r.
Proof.
  revert c. induction rs as [|e rs IH]; intros c Hr Hall; simpl; [exact Hr|].
  inversion Hall; subst. apply IH; [apply cache_put_keeps_value|]; assumption.
Qed.

Lemma fold_put_value (rs : list (string * response)) (c : cache) (u : string) (r : response) :
  NoDup (map fst rs) -> In (u, r) rs ->
  cache_lookup (fold_left cache_put rs c) u = Some r.
Proof.
  revert c. induction rs as [|[k re] rs IH]; intros c Hnd Hin; simpl in *; [contradiction|].
  inversion Hnd as [|? ? Hk Hnd']; subst.
  destruct Hin as [Heq | Hin].
  - injection Heq as -> ->.
    apply fold_put_keeps_value.
    + unfold cache_put; simpl.
      rewrite cache_lookup_app_none by apply cache_lookup_filter_same.
      simpl. rewrite String.eqb_refl. reflexivity.
    + apply Forall_forall. intros [k' r'] Hin' Heq; simpl in Heq; subst k'.
      apply Hk. apply (in_map fst) in Hin'. exact Hin'.
  - apply IH; assumption.
Qed.

Definition not_in_keys (keys : list string) (k : string) : bool :=
  negb (existsb (String.eqb k) keys).

Lemma map_fst_filter_key (c : cache) (k : string) :
  map fst (filter (fun e' => negb (String.eqb (fst e') k)) c) =
  filter (fun x => negb (String.eqb x k)) (map fst c).
Proof.
  induction c as [|[k0 r0] c IH]; simpl; [reflexivity|].
  destruct (String.eqb k0 k); simpl; [exact IH | f_equal; exact IH].
Qed.

Lemma filter_not_in_cons (l keys : list string) (k : string) :
  filter (not_in_keys keys) (filter (fun x => negb (String.eqb x k)) l) =
  filter (not_in_keys (k :: keys)) l.
Proof.
  induction l as [|x l IH]; [reflexivity|].
  cbn [filter].
  replace (not_in_keys (k :: keys) x) with (negb (String.eqb x k) && not_in_keys keys x)
    by (unfold not_in_keys; simpl; destruct (String.eqb x k); reflexivity).
  destruct (String.eqb x k); simpl; [exact IH|].
  destruct (not_in_keys keys x); simpl; rewrite IH; reflexivity.
Qed.

(** Putting entries of pairwise distinct keys: the keys already there
    that are not put again stay, in order, then come the new keys. *)
Lemma fold_put_keys_general (rs : list (string * response)) (c : cache) :
  NoDup (map fst rs) ->
  map fst (fold_left cache_put rs c) =
  (filter (not_in_keys (map fst rs)) (map fst c) ++ map fst rs)%list.
Proof.
  revert c. induction rs as [|[k re] rs IH]; intros c Hnd; simpl in *.
  - rewrite app_nil_r. clear. induction (map fst c) as [|x l IH]; simpl; [reflexivity|].
    f_equal. exact IH.
  - inversion Hnd as [|? ? Hk Hnd']; subst.
    rewrite (IH _ Hnd'). unfold cache_put. rewrite map_app, map_fst_filter_key. simpl.
    rewrite filter_app, filter_not_in_cons.
    assert (Hx : existsb (String.eqb k) (map fst rs) = false).
    { apply Bool.not_true_iff_false. intro H. apply existsb_exists in H as [x [Hx Hxe]].
      apply String.eqb_eq in Hxe. subst x. contradiction. }
    cbn [filter]. unfold not_in_keys at 2. rewrite Hx. simpl.
    rewrite <- app_assoc. reflexivity.
Qed.

Lemma fetch_all_value (net : network) (urls : list string) rs (u : string) (r : response) :
  fetch_all net urls = Resolved rs -> In u urls -> net (get_request u) = Some r ->
  In (u, r) rs.
Proof.
  revert rs. induction urls as [|u0 us IH]; intros rs H Hin Hr; simpl in *; [contradiction|].
  destruct (net (get_request u0)) as [r0|] eqn:E0; [|discriminate].
  destruct (addAll_accepts r0); [|discriminate].
  destruct (fetch_all net us) as [rs'|e] eqn:E; [|discriminate].
  injection H as <-. destruct Hin as [<- | Hin].
  - rewrite Hr in E0. injection E0 as <-. left. reflexivity.
  - right. apply IH; auto.
Qed.

(** ** Properties *)

Lemma NoDup_PRECACHE : NoDup PRECACHE.
Proof. unfold PRECACHE, OFFLINE_URL. repeat constructor; simpl; intuition discriminate. Qed.

(** A successful install, also over an existing [undo-cache-v1] cache,
    leaves in that cache the entries whose URL is not in the manifest, in
    their order and each keeping its old response, followed by the six
    manifest URLs in manifest order, each holding the response just
    fetched: re-installing refreshes the manifest entries without
    duplicating them. *)
Theorem install_refreshes_entries (net : network) (st : storage) sg st'
  (Hinst : dispatch_install net st = (sg, true, st')) :
  exists c,
    lookup_cache CACHE_NAME st' = Some c /\
    map fst c = (filter (not_in_keys PRECACHE) (map fst (old_entries st)) ++ PRECACHE)%list /\
    (forall u r, ~ In u PRECACHE -> cache_lookup (old_entries st) u = Some r ->
       cache_lookup c u = Some r) /\
    (forall u r, In u PRECACHE -> net (get_request u) = Some r -> cache_lookup c u = Some r).
Proof.
  rewrite dispatch_install_eq in Hinst.
  destruct (fetch_all net PRECACHE) as [rs|e] eqn:Hrs; [|discriminate].
  injection Hinst as _ <-.
  pose proof (fetch_all_keys net PRECACHE rs Hrs) as Hk.
  assert (Hnd : NoDup (map fst rs)) by (rewrite Hk; apply NoDup_PRECACHE).
  exists (fold_left cache_put rs (old_entries st)). split; [|split; [|split]].
  - apply lookup_update_same. rewrite lookup_opened. discriminate.
  - rewrite fold_put_keys_general by exact Hnd. rewrite Hk. reflexivity.
  - intros u r Hu Hr. apply fold_put_keeps_value; [exact Hr|].
    apply Forall_forall. intros e He Heq. apply Hu.
    rewrite <- Hk, <- Heq. apply in_map, He.
  - intros u r Hu Hr. apply fold_put_value; [exact Hnd|].
    exact (fetch_all_value net PRECACHE rs u r Hrs Hu Hr).
Qed.

(** The install, whether it succeeds or fails, leaves every other cache
    (an older version's, for instance) as it was: nothing ever deletes or
    changes them. *)
Theorem install_keeps_other_caches (net : network) (st : storage) (n : string)
  (Hn : n <> CACHE_NAME) :
  lookup_cache n (snd (dispatch_install net st)) = lookup_cache n st.
Proof.
  rewrite dispatch_install_eq.
  destruct (fetch_all net PRECACHE); simpl.
  - rewrite lookup_update_other by exact Hn. apply lookup_opened_other, Hn.
  - apply lookup_opened_other, Hn.
Qed.

(** When a CacheStorage without [undo-cache-v1] already holds an entry for
    a URL (in a cache of another version), then after the install,
    whatever its outcome, a non-navigation GET request for that URL is
    still answered with the old entry: [caches.match] looks in the caches
    in creation order and the new cache comes last. *)
Theorem old_cache_entries_win (net : network) (st : storage) (u : string) (r_old : response)
  (Hfresh : lookup_cache CACHE_NAME st = None)
  (Hold : storage_lookup st u = Some r_old)
  (net' : network) (req : request)
  (Hurl : req_url req = u) (Hget : req_method req = "GET")
  (Hmode : req_mode req <> "navigate") :
  dispatch_fetch net' (snd (dispatch_install net st)) req =
  (Served r_old, snd (dispatch_install net st)).
Proof.
  rewrite dispatch_fetch_other by exact Hmode.
  assert (Hl : storage_lookup (snd (dispatch_install net st)) u = Some r_old).
  { rewrite dispatch_install_eq. unfold opened, old_entries. rewrite Hfresh.
    destruct (fetch_all net PRECACHE); simpl.
    - rewrite update_cache_last by exact Hfresh. rewrite storage_lookup_app, Hold. reflexivity.
    - rewrite storage_lookup_app, Hold. reflexivity. }
  unfold storage_match. rewrite Hget, String.eqb_refl, Hurl, Hl. reflexivity.
Qed.

(** A non-navigation request whose method is not GET (a POST, say) is
    never answered from the cache: it goes to the network, and a failed
    fetch is a network error for the page. *)
Theorem non_get_bypasses_cache (net : network) (st : storage) (req : request)
  (Hmethod : req_method req <> "GET") (Hmode : req_mode req <> "navigate") :
  dispatch_fetch net st req =
  (match net req with Some r => Served r | None => NetworkError end, st).
Proof.
  rewrite dispatch_fetch_other by exact Hmode.
  unfold storage_match. apply String.eqb_neq in Hmethod. rewrite Hmethod. reflexivity.
Qed.

(** When the install fails on a CacheStorage that holds no offline page,
    a navigation made while offline gets a network error: there is no
    fallback to serve. *)
Theorem failed_install_no_fallback (net : network) (st : storage) sg st'
  (Hinst : dispatch_install net st = (sg, false, st'))
  (Hnone : storage_lookup st OFFLINE_URL = None)
  (net' : network) (req : request)
  (Hmode : req_mode req = "navigate") (Hoff : net' req = None) :
  dispatch_fetch net' st' req = (NetworkError, st').
Proof.
  rewrite dispatch_install_eq in Hinst.
  destruct (fetch_all net PRECACHE); [discriminate|].
  injection Hinst as _ <-.
  rewrite dispatch_fetch_navigate by exact Hmode. rewrite Hoff.
  unfold storage_match; simpl.
  assert (H : storage_lookup (opened st) OFFLINE_URL = None).
  { unfold opened. destruct (lookup_cache CACHE_NAME st); [exact Hnone|].
    rewrite storage_lookup_app, Hnone. reflexivity. }
  rewrite H. reflexivity.
Qed.

End ServiceWorkerExtra.

(* ===================================================================== *)
(** * Further properties of the swipe navigator *)
(* ===================================================================== *)

Module SwipeExtra.
Import Swipe SwipeFacts.
Local Open Scope Z_scope.

Definition no_touchstart (ev : touch_event) : Prop :=
  match ev with
  | TouchStart _ _ _ => False
  | _ => True
  end.

(** [angleOK] treats mirrored swipes alike: it depends on neither the sign
    of [dx] nor that of [dy]; it refuses [dx = 0] and accepts any purely
    horizontal move. *)
Theorem angleOK_mirror (dx dy : Z) :
  angleOK (- dx) dy = angleOK dx dy /\
  angleOK dx (- dy) = angleOK dx dy /\
  angleOK 0 dy = false /\
  (dx <> 0 -> angleOK dx 0 = true).
Proof.
  unfold angleOK. rewrite !Z.abs_opp. split; [reflexivity|]. split; [reflexivity|].
  split; [reflexivity|].
  intro H. replace (Z.abs dx =? 0) with false by (symmetry; apply Z.eqb_neq; lia).
  apply Z.leb_le. simpl. nia.
Qed.

(** A touch that starts on a form element or link is ignored until the
    next [touchstart]: whatever moves and ends follow (several fingers
    lifting, say), nothing navigates. *)
Theorem ignored_until_next_touchstart (url_pathname : string -> string -> option string)
  (pg : page) (tabs : list string) (g : gesture) (x y : Z) (target : list element)
  (evs : list touch_event)
  (Hform : isFormEl target = true)
  (Hnostart : Forall no_touchstart evs) :
  run url_pathname pg tabs g (TouchStart x y target :: evs) = [].
Proof.
  simpl. rewrite Hform.
  remember (mkGesture x y false true) as g' eqn:Eg.
  assert (Hig : ignore g' = true) by (subst g'; reflexivity).
  clear Eg. revert g' Hig.
  induction Hnostart as [|ev evs Hev Hrest IH]; intros g' Hig; [reflexivity|].
  destruct ev as [x0 y0 t0| |x1 y1]; simpl in Hev |- *; [contradiction| |].
  - apply IH. simpl. exact Hig.
  - unfold on_touchend at 1. rewrite Hig. simpl. apply IH, Hig.
Qed.

(** [touchend] does not reset the gesture: a second [touchend] after a
    navigating one (another finger lifting at the same point) is judged
    against the same start and navigates again. *)
Theorem second_touchend_navigates_again (url_pathname : string -> string -> option string)
  (pg : page) (tabs : list string) (g : gesture) (x0 y0 : Z) (target : list element)
  (x1 y1 : Z) (u : string)
  (Hnav : on_touchend url_pathname pg tabs (mkGesture x0 y0 true (isFormEl target)) x1 y1 = Some u) :
  run url_pathname pg tabs g [TouchStart x0 y0 target; TouchMove; TouchEnd x1 y1; TouchEnd x1 y1]
  = [u; u].
Proof. simpl. rewrite Hnav. reflexivity. Qed.

(** ** Tab lists with distinct paths *)

Lemma goto_valid (url_pathname : string -> string -> option string) (pg : page) (s : string) :
  s <> "" -> url_pathname (href pg) s <> None -> goto url_pathname pg (Some s) = Some s.
Proof.
  intros H Hp. unfold goto. apply String.eqb_neq in H. rewrite H.
  destruct (url_pathname (href pg) s); [reflexivity | contradiction].
Qed.

Lemma next_then_prev_index (i n : nat) :
  (i < n)%nat -> (((i + 1) mod n + n - 1) mod n = i)%nat.
Proof.
  intro H. destruct (Nat.eq_dec (i + 1) n) as [E | E].
  - rewrite E, Nat.Div0.mod_same. rewrite Nat.mod_small by lia. lia.
  - rewrite (Nat.mod_small (i + 1)) by lia.
    replace (i + 1 + n - 1)%nat with (i + 1 * n)%nat by lia.
    rewrite Nat.Div0.mod_add. apply Nat.mod_small, H.
Qed.

Lemma prev_then_next_index (i n : nat) :
  (i < n)%nat -> (((i + n - 1) mod n + 1) mod n = i)%nat.
Proof.
  intro H. destruct i as [|i].
  - rewrite (Nat.mod_small (0 + n - 1)) by lia.
    replace (0 + n - 1 + 1)%nat with n by lia. apply Nat.Div0.mod_same.
  - replace (S i + n - 1)%nat with (i + 1 * n)%nat by lia.
    rewrite Nat.Div0.mod_add, (Nat.mod_small i) by lia.
    rewrite Nat.mod_small by lia. lia.
Qed.

(** On a tab list whose entries all parse to distinct non-empty paths,
    the page of each tab is found at that tab's own index. *)
Lemma tabIndexOf_distinct (url_pathname : string -> string -> option string)
  (o : string) (tabs : list string) (i : nat) (t : string)
  (Hparse : forall j tj, nth_error tabs j = Some tj ->
            exists q, url_pathname o tj = Some q /\ q <> "")
  (Hdistinct : NoDup (map (url_pathname o) tabs))
  (Hi : nth_error tabs i = Some t) :
  Swipe.tabIndexOf url_pathname (mkPage o t) tabs t = Z.of_nat i.
Proof.
  destruct (Hparse i t Hi) as [q [Hq Hqne]].
  apply (tabIndexOf_found url_pathname (mkPage o t) tabs q i t); try exact Hq; try exact Hqne; try exact Hi.
  intros j t' Hj Hn Heq.
  apply NoDup_nth_error with (i := j) (j := i) in Hdistinct.
  - lia.
  - rewrite length_map. apply nth_error_Some. congruence.
  - rewrite !nth_error_map, Hn, Hi. simpl. unfold normalizePath in Heq. simpl in Heq.
    rewrite Heq, Hq. reflexivity.
Qed.

(** When the tabs parse to distinct non-empty paths and every entry is a
    non-empty URL that parses against the URL of any tab page, a "next"
    navigation followed by a "previous" one from the page reached comes
    back to the starting tab, and so does "previous" then "next". *)
Theorem next_prev_round_trip (url_pathname : string -> string -> option string)
  (o : string) (tabs : list string) (i : nat) (t : string)
  (Hparse : forall j tj, nth_error tabs j = Some tj ->
            exists q, url_pathname o tj = Some q /\ q <> "")
  (Hdistinct : NoDup (map (url_pathname o) tabs))
  (Hentry : forall tj tk, In tj tabs -> In tk tabs -> tj <> "" /\ url_pathname tk tj <> None)
  (Hi : nth_error tabs i = Some t) :
  (exists t', nextTab url_pathname (mkPage o t) tabs = Some t' /\
              prevTab url_pathname (mkPage o t') tabs = Some t) /\
  (exists t', prevTab url_pathname (mkPage o t) tabs = Some t' /\
              nextTab url_pathname (mkPage o t') tabs = Some t).
Proof.
  assert (Hlt : (i < length tabs)%nat) by (apply nth_error_Some; congruence).
  assert (Hn0 : length tabs <> 0%nat) by lia.
  assert (Hin : In t tabs) by (eapply nth_error_In; exact Hi).
  pose proof (tabIndexOf_distinct url_pathname o tabs i t Hparse Hdistinct Hi) as Hidx.
  assert (Hgo : forall tj tk, In tj tabs -> In tk tabs ->
            goto url_pathname (mkPage o tk) (Some tj) = Some tj).
  { intros tj tk Hj Hk. destruct (Hentry tj tk Hj Hk) as [Hne Hok].
    apply goto_valid; assumption. }
  assert (Hat : forall j, (j < length tabs)%nat ->
            exists tj, nth_error tabs j = Some tj /\ In tj tabs /\
              Swipe.tabIndexOf url_pathname (mkPage o tj) tabs (href (mkPage o tj)) = Z.of_nat j).
  { intros j Hj. destruct (nth_error tabs j) as [tj|] eqn:Ej; [|apply nth_error_Some in Hj; congruence].
    exists tj. split; [reflexivity|]. split.
    - eapply nth_error_In. exact Ej.
    - apply (tabIndexOf_distinct url_pathname o tabs j tj Hparse Hdistinct Ej). }
  split.
  - destruct (Hat ((i + 1) mod length tabs)%nat (Nat.mod_upper_bound _ _ Hn0))
      as (t' & Ht' & Hin' & Hidx').
    exists t'. split.
    + rewrite (nextTab_at url_pathname (mkPage o t) tabs i Hidx Hlt), Ht'.
      apply Hgo; assumption.
    + rewrite (prevTab_at url_pathname (mkPage o t') tabs _ Hidx' (Nat.mod_upper_bound _ _ Hn0)).
      rewrite next_then_prev_index, Hi by exact Hlt.
      apply Hgo; assumption.
  - destruct (Hat ((i + length tabs - 1) mod length tabs)%nat (Nat.mod_upper_bound _ _ Hn0))
      as (t' & Ht' & Hin' & Hidx').
    exists t'. split.
    + rewrite (prevTab_at url_pathname (mkPage o t) tabs i Hidx Hlt), Ht'.
      apply Hgo; assumption.
    + rewrite (nextTab_at url_pathname (mkPage o t') tabs _ Hidx' (Nat.mod_upper_bound _ _ Hn0)).
      rewrite prev_then_next_index, Hi by exact Hlt.
      apply Hgo; assumption.
Qed.

(** With a single tab that is the current page, and a non-empty URL that
    parses against the page URL, both directions navigate to that same tab
    (the page is loaded again). *)
Theorem single_tab_reloads (url_pathname : string -> string -> option string)
  (pg : page) (t p : string)
  (Hcur : normalizePath url_pathname pg (href pg) = Some p) (Hp : p <> "")
  (Ht : normalizePath url_pathname pg t = Some p) (Hne : t <> "")
  (Hassign : url_pathname (href pg) t <> None) :
  nextTab url_pathname pg [t] = Some t /\ prevTab url_pathname pg [t] = Some t.
Proof.
  assert (Hidx : Swipe.tabIndexOf url_pathname pg [t] (href pg) = Z.of_nat 0).
  { apply (tabIndexOf_found url_pathname pg [t] p 0 t Hcur Hp eq_refl Ht).
    intros j t' Hj. lia. }
  rewrite (nextTab_at url_pathname pg [t] 0 Hidx), (prevTab_at url_pathname pg [t] 0 Hidx)
    by (simpl; lia).
  simpl. split; apply goto_valid; assumption.
Qed.


End SwipeExtra.

(* ===================================================================== *)
(** * The further properties on concrete inputs *)
(* ===================================================================== *)

Module ExtraWitnesses.
Import ServiceWorker ServiceWorkerFacts ServiceWorkerExtra Swipe SwipeFacts SwipeExtra Witnesses.
Local Open Scope Z_scope.

Definition old_css : response := mkResponse "/static/style.css" 200 [] "old css".
Definition st_old : storage := [("undo-cache-v0", [("/static/style.css", old_css)])].
Definition post_req : request := mkRequest "/api/reflections" "POST" "cors".
Definition old_js : response := mkResponse "/static/extra.js" 200 [] "old js".
(** An earlier [undo-cache-v1] holding a non-manifest entry and a stale
    copy of the stylesheet. *)
Definition st_v1 : storage :=
  [(CACHE_NAME, [("/static/extra.js", old_js); ("/static/style.css", old_css)])].

Lemma install_refreshes_entries_witness :
  dispatch_install net_up st_v1 =
    ([SkipWaitingCalled; WaitUntilSettled true], true, snd (dispatch_install net_up st_v1)) /\
  exists c,
    lookup_cache CACHE_NAME (snd (dispatch_install net_up st_v1)) = Some c /\
    map fst c = (filter (not_in_keys PRECACHE) (map fst (old_entries st_v1)) ++ PRECACHE)%list /\
    (forall u r, ~ In u PRECACHE -> cache_lookup (old_entries st_v1) u = Some r ->
       cache_lookup c u = Some r) /\
    (forall u r, In u PRECACHE -> net_up (get_request u) = Some r -> cache_lookup c u = Some r).
Proof.
  split; [vm_compute; reflexivity|].
  apply (install_refreshes_entries net_up st_v1 [SkipWaitingCalled; WaitUntilSettled true]).
  vm_compute. reflexivity.
Defined.

Lemma install_keeps_other_caches_witness :
  "undo-cache-v0" <> CACHE_NAME /\
  lookup_cache "undo-cache-v0" (snd (dispatch_install net_up st_old)) =
  lookup_cache "undo-cache-v0" st_old.
Proof.
  split; [vm_compute; discriminate|].
  apply install_keeps_other_caches. vm_compute. discriminate.
Defined.

Lemma old_cache_entries_win_witness :
  lookup_cache CACHE_NAME st_old = None /\
  dispatch_fetch net_up (snd (dispatch_install net_up st_old)) css_req =
  (Served old_css, snd (dispatch_install net_up st_old)).
Proof.
  split; [reflexivity|].
  apply (old_cache_entries_win net_up st_old "/static/style.css" old_css);
    try reflexivity.
  vm_compute. discriminate.
Defined.

Lemma non_get_bypasses_cache_witness :
  req_method post_req <> "GET" /\
  dispatch_fetch net_down installed post_req = (NetworkError, installed).
Proof.
  split; [vm_compute; discriminate|].
  apply (non_get_bypasses_cache net_down installed post_req); vm_compute; discriminate.
Defined.

Lemma failed_install_no_fallback_witness :
  dispatch_install net_down [] =
    ([SkipWaitingCalled; WaitUntilSettled false], false, [(CACHE_NAME, [])]) /\
  dispatch_fetch net_down [(CACHE_NAME, [])] nav_req = (NetworkError, [(CACHE_NAME, [])]).
Proof.
  split; [vm_compute; reflexivity|].
  apply (failed_install_no_fallback net_down [] [SkipWaitingCalled; WaitUntilSettled false]);
    vm_compute; reflexivity.
Defined.

Lemma angleOK_mirror_witness :
  angleOK (-100) 40 = angleOK 100 40 /\ angleOK 100 0 = true.
Proof.
  split.
  - exact (proj1 (angleOK_mirror 100 40)).
  - apply (angleOK_mirror 100 0). lia.
Defined.

Lemma ignored_until_next_touchstart_witness :
  isFormEl [mkElement "input" []] = true /\
  run demo_pathname pg_reflections demo_tabs gesture0
    (TouchStart 200 100 [mkElement "input" []] :: [TouchMove; TouchEnd 100 100; TouchMove; TouchEnd 50 100])
  = [].
Proof.
  split; [reflexivity|].
  apply ignored_until_next_touchstart; [reflexivity|].
  repeat constructor.
Defined.

Lemma second_touchend_navigates_again_witness :
  on_touchend demo_pathname pg_reflections demo_tabs (mkGesture 200 100 true (isFormEl [])) 100 100
    = Some "https://u.example/profile" /\
  run demo_pathname pg_reflections demo_tabs gesture0
    [TouchStart 200 100 []; TouchMove; TouchEnd 100 100; TouchEnd 100 100]
  = ["https://u.example/profile"; "https://u.example/profile"].
Proof.
  split; [vm_compute; reflexivity|].
  apply second_touchend_navigates_again. vm_compute. reflexivity.
Defined.

Lemma next_prev_round_trip_witness :
  NoDup (map (demo_pathname demo_origin) demo_tabs) /\
  (exists t', nextTab demo_pathname (mkPage demo_origin "https://u.example/profile") demo_tabs = Some t' /\
              prevTab demo_pathname (mkPage demo_origin t') demo_tabs = Some "https://u.example/profile") /\
  (exists t', prevTab demo_pathname (mkPage demo_origin "https://u.example/profile") demo_tabs = Some t' /\
              nextTab demo_pathname (mkPage demo_origin t') demo_tabs = Some "https://u.example/profile").
Proof.
  assert (Hnd : NoDup (map (demo_pathname demo_origin) demo_tabs)).
  { vm_compute. repeat constructor; simpl; intuition discriminate. }
  split; [exact Hnd|].
  apply (next_prev_round_trip demo_pathname demo_origin demo_tabs 2); [| exact Hnd | | reflexivity].
  - intros j tj Hj. destruct j as [|[|[|j]]]; vm_compute in Hj;
      try (injection Hj as <-; eexists; split; [vm_compute; reflexivity | discriminate]).
    destruct j; discriminate.
  - intros tj tk Htj _. vm_compute in Htj.
    destruct Htj as [<- | [<- | [<- | []]]]; split; vm_compute; discriminate.
Defined.

Lemma single_tab_reloads_witness :
  nextTab demo_pathname (mkPage demo_origin "https://u.example/") ["https://u.example/"]
    = Some "https://u.example/" /\
  prevTab demo_pathname (mkPage demo_origin "https://u.example/") ["https://u.example/"]
    = Some "https://u.example/".
Proof.
  apply (single_tab_reloads demo_pathname (mkPage demo_origin "https://u.example/")
           "https://u.example/" "/"); try reflexivity; vm_compute; discriminate.
Defined.


End ExtraWitnesses.
